(** * rejoin_slice: joining slices that are adjacent in memory

    Shallow embedding of [src/lib.rs].  A slice reference [&[T]] (or
    [&mut [T]]) is its fat pointer: a start address and a length.  Memory
    is a store from addresses to elements.  The Rust operations run in a
    small state-and-panic monad: they may read or write the store, and
    [expect], an out-of-range index or an arithmetic overflow aborts the
    call with a message.  Lengths are [usize] values of a 64-bit target,
    and the code is run with overflow checks on (debug builds and
    [cargo test]), so an addition past [usize::MAX] panics. *)

From Stdlib Require Import ZArith List String Bool Lia.
Import ListNotations.
Open Scope Z_scope.

(** ** A state monad with panics *)

Inductive outcome (A : Type) : Type :=
| Ret (x : A)
| Panic (msg : string).
Arguments Ret {A} x.
Arguments Panic {A} msg.

Definition M (S A : Type) : Type := S -> outcome (A * S).

Definition ret {S A} (x : A) : M S A := fun s => Ret (x, s).

Definition bind {S A B} (c : M S A) (k : A -> M S B) : M S B :=
  fun s => match c s with
           | Ret (x, s') => k x s'
           | Panic msg => Panic msg
           end.

Definition panic {S A} (msg : string) : M S A := fun _ => Panic msg.
Definition get {S} : M S S := fun s => Ret (s, s).
Definition put {S} (s : S) : M S unit := fun _ => Ret (tt, s).

Notation "x <- c ;; k" := (bind c (fun x => k))
  (at level 61, c at next level, right associativity).

(** [Option::expect] *)
Definition expect {S A} (o : option A) (msg : string) : M S A :=
  match o with
  | Some x => ret x
  | None => panic msg
  end.

(** [Option::map] *)
Definition option_map {A B} (f : A -> B) (o : option A) : option B :=
  match o with Some x => Some (f x) | None => None end.

(** ** [usize] arithmetic *)

(** [usize::MAX] on a 64-bit target. *)
Definition usize_max : Z := 18446744073709551615.

Definition add_overflow_msg : string := "attempt to add with overflow".

(** [x + y] on [usize] with overflow checks: panics past [usize::MAX]. *)
Definition usize_add {S} (x y : nat) : M S nat :=
  if Z.of_nat x + Z.of_nat y <=? usize_max then ret (x + y)%nat
  else panic add_overflow_msg.

(** ** Slices *)

(** A fat pointer [&[T]] / [&mut [T]]: [as_ptr()] and [len()]. *)
Record slice : Type := mk_slice { ptr : Z; len : nat }.

Section Slices.

(** The element type and [size_of::<T>()], which is 0 for zero-sized types. *)
Variable T : Type.
Variable size : nat.

(** The store: the element held at each (element-aligned) address. *)
Definition mem : Type := Z -> T.

(** Address of element [i] of a slice starting at [p]: [p.add(i)]. *)
Definition elem_addr (p : Z) (i : nat) : Z := p + Z.of_nat i * Z.of_nat size.

(** [&s[k..]]: panics when [k > s.len()]; no memory is touched. *)
Definition index_from (s : slice) (k : nat) : M mem slice :=
  if (k <=? len s)%nat
  then ret (mk_slice (elem_addr (ptr s) k) (len s - k))
  else panic "range start index out of range for slice".

(** [&s[..k]]: panics when [k > s.len()]. *)
Definition index_to (s : slice) (k : nat) : M mem slice :=
  if (k <=? len s)%nat
  then ret (mk_slice (ptr s) k)
  else panic "range end index out of range for slice".

(** [s.split_at_mut(k)]: panics when [k > s.len()]. *)
Definition split_at_mut (s : slice) (k : nat) : M mem (slice * slice) :=
  if (k <=? len s)%nat
  then ret (mk_slice (ptr s) k, mk_slice (elem_addr (ptr s) k) (len s - k))
  else panic "mid > len".

(** [s[i]] as an rvalue: bounds-checked read of the store. *)
Definition read (s : slice) (i : nat) : M mem T :=
  if (i <? len s)%nat
  then m <- get ;; ret (m (elem_addr (ptr s) i))
  else panic "index out of bounds".

(** [s[i] = x] through a mutable slice: bounds-checked write. *)
Definition write (s : slice) (i : nat) (x : T) : M mem unit :=
  if (i <? len s)%nat
  then m <- get ;;
       put (fun a => if a =? elem_addr (ptr s) i then x else m a)
  else panic "index out of bounds".

(** [core::ptr::eq]: compares addresses, reads nothing. *)
Definition ptr_eq (p q : Z) : bool := p =? q.

(** [core::slice::from_raw_parts] / [from_raw_parts_mut]. *)
Definition from_raw_parts (p : Z) (n : nat) : slice := mk_slice p n.

(** [SliceExt::try_rejoin] (lines 71-79). *)
Definition try_rejoin (self other : slice) : M mem (option slice) :=
  let self_len := len self in
  self_end <- index_from self self_len ;;
  if ptr_eq (ptr self_end) (ptr other)
  then n <- usize_add (len self) (len other) ;;
       ret (Some (from_raw_parts (ptr self) n))
  else ret None.

(** [SliceExt::try_rejoin_mut] (lines 81-89). *)
Definition try_rejoin_mut (self other : slice) : M mem (option slice) :=
  let self_len := len self in
  self_end <- index_from self self_len ;;
  if ptr_eq (ptr self_end) (ptr other)
  then n <- usize_add (len self) (len other) ;;
       ret (Some (from_raw_parts (ptr self) n))
  else ret None.

Definition not_adjacent_msg : string :=
  "the input slices must be adjacent in memory".

(** [SliceExt::rejoin] (lines 63-65). *)
Definition rejoin (self other : slice) : M mem slice :=
  o <- try_rejoin self other ;;
  expect o not_adjacent_msg.

(** [SliceExt::rejoin_mut] (lines 67-69). *)
Definition rejoin_mut (self other : slice) : M mem slice :=
  o <- try_rejoin_mut self other ;;
  expect o not_adjacent_msg.

(** The adjacency relation of the specification:
    [address(a) + length(a) * element_size == address(b)]. *)
Definition adjacent (a b : slice) : Prop :=
  ptr a + Z.of_nat (len a) * Z.of_nat size = ptr b.

(** Where a slice reference can lie: it starts at a non-negative address
    and its one-past-end address [s[s.len()..].as_ptr()] is a [usize]. *)
Definition in_space (s : slice) : Prop :=
  0 <= ptr s /\ ptr s + Z.of_nat (len s) * Z.of_nat size <= usize_max.

End Slices.

Arguments index_from {T} size s k.
Arguments index_to {T} s k.
Arguments split_at_mut {T} size s k.
Arguments read {T} size s i.
Arguments write {T} size s i x.
Arguments try_rejoin {T} size self other.
Arguments try_rejoin_mut {T} size self other.
Arguments rejoin {T} size self other.
Arguments rejoin_mut {T} size self other.

(** Contents of a slice in a store: [s.to_vec()], one read per element. *)
Definition contents {T} (size : nat) (m : mem T) (s : slice) : list T :=
  map (fun i => m (elem_addr size (ptr s) i)) (seq 0 (len s)).

(** Result of a run, without the final store. *)
Definition result_of {S A} (o : outcome (A * S)) : outcome A :=
  match o with
  | Ret (x, _) => Ret x
  | Panic msg => Panic msg
  end.

(** ** String slices

    A [&str] is a fat pointer to bytes ([size_of::<u8>() = 1]) whose
    contents are valid UTF-8.  Bytes are [Z] values in [0, 255]. *)

Record str_ref : Type := mk_str { sptr : Z; slen : nat }.

Definition byte_mem : Type := mem Z.

(** [str::as_bytes] *)
Definition as_bytes (s : str_ref) : slice := mk_slice (sptr s) (slen s).

(** [core::str::from_utf8_unchecked]: no check of the bytes. *)
Definition from_utf8_unchecked (v : slice) : str_ref := mk_str (ptr v) (len v).

Definition str_bytes (m : byte_mem) (s : str_ref) : list Z :=
  contents 1 m (as_bytes s).

(** [StrExt::try_rejoin] (lines 108-110). *)
Definition str_try_rejoin (self other : str_ref) : M byte_mem (option str_ref) :=
  o <- try_rejoin 1 (as_bytes self) (as_bytes other) ;;
  ret (option_map from_utf8_unchecked o).

Definition str_not_adjacent_msg : string :=
  "the input string slices must be adjacent in memory".

(** [StrExt::rejoin] (lines 104-106). *)
Definition str_rejoin (self other : str_ref) : M byte_mem str_ref :=
  o <- str_try_rejoin self other ;;
  expect o str_not_adjacent_msg.

(** *** The [str] invariant and slicing of the standard library

    UTF-8 validation as done by [core::str::from_utf8]
    ([run_utf8_validation]): the first byte fixes the width of the
    sequence and the admissible range of the second byte (no overlong
    forms, no surrogates, nothing above U+10FFFF). *)

Definition cont_byte (b : Z) : bool := (0x80 <=? b) && (b <=? 0xBF).

Definition in_range (lo hi b : Z) : bool := (lo <=? b) && (b <=? hi).

Definition second_ok3 (b0 b1 : Z) : bool :=
  if b0 =? 0xE0 then in_range 0xA0 0xBF b1
  else if b0 =? 0xED then in_range 0x80 0x9F b1
  else cont_byte b1.

Definition second_ok4 (b0 b1 : Z) : bool :=
  if b0 =? 0xF0 then in_range 0x90 0xBF b1
  else if b0 =? 0xF4 then in_range 0x80 0x8F b1
  else cont_byte b1.

Fixpoint utf8_valid (l : list Z) : bool :=
  match l with
  | [] => true
  | b0 :: r =>
      if in_range 0x00 0x7F b0 then utf8_valid r
      else if in_range 0xC2 0xDF b0 then
        match r with
        | b1 :: r1 => cont_byte b1 && utf8_valid r1
        | [] => false
        end
      else if in_range 0xE0 0xEF b0 then
        match r with
        | b1 :: b2 :: r2 => second_ok3 b0 b1 && cont_byte b2 && utf8_valid r2
        | _ => false
        end
      else if in_range 0xF0 0xF4 b0 then
        match r with
        | b1 :: b2 :: b3 :: r3 =>
            second_ok4 b0 b1 && cont_byte b2 && cont_byte b3 && utf8_valid r3
        | _ => false
        end
      else false
  end.

(** [u8::is_utf8_char_boundary]: [(b as i8) >= -0x40]. *)
Definition is_utf8_char_boundary (b : Z) : bool := (b <? 0x80) || (0xC0 <=? b).

(** [str::is_char_boundary] *)
Definition is_char_boundary (s : str_ref) (index : nat) : M byte_mem bool :=
  if (index =? 0)%nat then ret true
  else if (slen s <=? index)%nat then ret (index =? slen s)%nat
  else b <- read 1 (as_bytes s) index ;; ret (is_utf8_char_boundary b).

(** [&s[..k]]: panics unless [k] is a char boundary. *)
Definition str_index_to (s : str_ref) (k : nat) : M byte_mem str_ref :=
  ok <- is_char_boundary s k ;;
  if ok then ret (mk_str (sptr s) k)
  else panic "byte index is not a char boundary".

(** [&s[k..]]: panics unless [k] is a char boundary. *)
Definition str_index_from (s : str_ref) (k : nat) : M byte_mem str_ref :=
  ok <- is_char_boundary s k ;;
  if ok then ret (mk_str (elem_addr 1 (sptr s) k) (slen s - k))
  else panic "byte index is not a char boundary".

(** *** [copy_from_slice], as used by the tests of [rejoin_mut]

    [<[T]>::copy_from_slice]: panics unless both lengths agree (the Rust
    message also prints the two lengths), then stores the source elements
    one after the other. *)

Fixpoint write_all {T} (size : nat) (dst : slice) (i : nat) (vals : list T)
    : M (mem T) unit :=
  match vals with
  | [] => ret tt
  | v :: vs => _ <- write size dst i v ;; write_all size dst (S i) vs
  end.

Definition copy_from_slice {T} (size : nat) (dst : slice) (src : list T)
    : M (mem T) unit :=
  if (len dst =? List.length src)%nat
  then write_all size dst 0 src
  else panic "source slice length does not match destination slice length".

(** *** [str::char_indices]

    [core::str::next_code_point]: decodes one [char] from the front of the
    bytes without checking them; a missing continuation byte reads as 0. *)

Definition utf8_first_byte (x w : Z) : Z := Z.land x (Z.shiftr 0x7F w).
Definition utf8_acc_cont_byte (ch byte : Z) : Z :=
  Z.lor (Z.shiftl ch 6) (Z.land byte 0x3F).

Definition next_or_0 (l : list Z) : Z * list Z :=
  match l with [] => (0, []) | y :: r => (y, r) end.

Definition next_code_point (l : list Z) : option (Z * list Z) :=
  match l with
  | [] => None
  | x :: r =>
      if x <? 128 then Some (x, r)
      else
        let init := utf8_first_byte x 2 in
        let (y, r1) := next_or_0 r in
        let ch := utf8_acc_cont_byte init y in
        if 0xE0 <=? x then
          let (z, r2) := next_or_0 r1 in
          let y_z := utf8_acc_cont_byte (Z.land y 0x3F) z in
          let ch := Z.lor (Z.shiftl init 12) y_z in
          if 0xF0 <=? x then
            let (w, r3) := next_or_0 r2 in
            Some (Z.lor (Z.shiftl (Z.land init 7) 18) (utf8_acc_cont_byte y_z w), r3)
          else Some (ch, r2)
        else Some (ch, r1)
  end.

(** [CharIndices]: each [char] with the byte offset it starts at; the
    offset advances by the number of bytes the decoder consumed.  Every
    step consumes at least one byte, so [length l] steps suffice. *)
Fixpoint char_indices_from (fuel : nat) (off : nat) (l : list Z) : list (nat * Z) :=
  match fuel with
  | O => []
  | S fuel' =>
      match next_code_point l with
      | None => []
      | Some (c, r) =>
          (off, c) :: char_indices_from fuel' (off + (List.length l - List.length r)) r
      end
  end.

Definition char_indices (l : list Z) : list (nat * Z) :=
  char_indices_from (List.length l) 0 l.

(** [&s[a..b]]: panics unless [a <= b] and both are char boundaries. *)
Definition str_index_range (s : str_ref) (a b : nat) : M byte_mem str_ref :=
  if (a <=? b)%nat then
    ok_a <- is_char_boundary s a ;;
    if ok_a then
      ok_b <- is_char_boundary s b ;;
      if ok_b then ret (mk_str (elem_addr 1 (sptr s) a) (b - a))
      else panic "byte index is not a char boundary"
    else panic "byte index is not a char boundary"
  else panic "slice index starts after it ends".

(** *** [util_lib::split_by_streak] of the crate documentation (lines 7-21)

    Cuts a string into maximal runs of one repeated [char]; the documented
    use of [rejoin] joins two of these runs again. *)

(** The [for (i, c) in input.char_indices()] loop; its state is
    [(last_char, last_idx, output)]. *)
Fixpoint streak_loop (input : str_ref) (ci : list (nat * Z))
    (last_char : Z) (last_idx : nat) (output : list str_ref)
    : M byte_mem (Z * nat * list str_ref) :=
  match ci with
  | [] => ret (last_char, last_idx, output)
  | (i, c) :: rest =>
      if negb (last_char =? c) then
        piece <- str_index_range input last_idx i ;;
        streak_loop input rest c i (output ++ [piece])%list
      else streak_loop input rest last_char last_idx output
  end.

Definition unwrap_none_msg : string :=
  "called `Option::unwrap()` on a `None` value".

Definition split_by_streak (input : str_ref) : M byte_mem (list str_ref) :=
  if (slen input =? 0)%nat then ret []
  else
    m <- get ;;
    let bytes := str_bytes m input in
    match next_code_point bytes with
    | None => panic unwrap_none_msg
    | Some (last_char, _) =>
        st <- streak_loop input (char_indices bytes) last_char 0 [] ;;
        let '(_, last_idx, output) := st in
        last <- str_index_from input last_idx ;;
        ret (output ++ [last])%list
    end.

(** Spans that tile the bytes from [s] to [e]: each starts where the
    previous one ends. *)
Fixpoint tiles (s : Z) (l : list str_ref) (e : Z) : Prop :=
  match l with
  | [] => s = e
  | p :: r => sptr p = s /\ tiles (sptr p + Z.of_nat (slen p)) r e
  end.

(** ** Concrete stores used by the examples *)

Definition seven_mem : mem Z := fun a => (a - 1000) / 4.

(** The bytes of ["céa"] (["é"] is [C3 A9]) at address 2000. *)
Definition cea_mem : byte_mem :=
  fun a => nth (Z.to_nat (a - 2000)) [0x63; 0xC3; 0xA9; 0x61] 0.
Definition cea : str_ref := mk_str 2000 4.

(** The input of the crate documentation's example, at address 3000. *)
Definition doc_bytes : list Z :=
  map (fun ch => Z.of_N (Ascii.N_of_ascii ch))
      (list_ascii_of_string "aaaaaaabbbbbbbcccccccddddeeeeeeefffggggggggh").
Definition doc_mem : byte_mem := fun a => nth (Z.to_nat (a - 3000)) doc_bytes 0.
Definition doc_input : str_ref := mk_str 3000 (List.length doc_bytes).

(** A slice [&[(); 1 << 63][..]] of the zero-sized type [()]: its length
    is [2^63], kept as the [nat] of that [Z] so that nothing computes it. *)
Definition zst_big : slice := mk_slice 0 (Z.to_nat 9223372036854775808).
Definition unit_mem : mem unit := fun _ => tt.

(** ** Sanity checks on the tests of [lib.rs] *)

Definition buf7 : slice := mk_slice 1000 7.
Definition zero_mem : mem Z := fun _ => 0.

Example test_rejoin_3 :
  (a <- index_to buf7 3 ;; b <- index_from 4 buf7 3 ;; rejoin 4 a b) zero_mem
  = Ret (buf7, zero_mem).
Proof. reflexivity. Qed.

Example test_rejoin_nogaps :
  (a <- index_to buf7 3 ;; b <- index_from 4 buf7 4 ;; rejoin 4 a b) zero_mem
  = Panic not_adjacent_msg.
Proof. reflexivity. Qed.

Example test_try_rejoin_same :
  (a <- index_from 4 buf7 3 ;; try_rejoin 4 a a) zero_mem = Ret (None, zero_mem).
Proof. reflexivity. Qed.

(** ** Basic facts *)

Section Facts.

Variable T : Type.
Variable size : nat.
Implicit Types (a b j buf : slice) (m : mem T).

Lemma elem_addr_add p i k :
  elem_addr size (elem_addr size p i) k = elem_addr size p (i + k).
Proof. unfold elem_addr. rewrite Nat2Z.inj_add. lia. Qed.

(** [try_rejoin] in closed form: one address comparison, then the checked
    length addition; the store is never touched. *)
Lemma try_rejoin_eq a b m :
  try_rejoin size a b m =
  if ptr a + Z.of_nat (len a) * Z.of_nat size =? ptr b
  then if Z.of_nat (len a) + Z.of_nat (len b) <=? usize_max
       then Ret (Some (mk_slice (ptr a) (len a + len b)), m)
       else Panic add_overflow_msg
  else Ret (None, m).
Proof.
  unfold try_rejoin, bind, index_from. rewrite Nat.leb_refl.
  cbn. unfold ptr_eq, elem_addr, usize_add.
  destruct (_ =? _); [|reflexivity]. now destruct (_ <=? _).
Qed.

Lemma try_rejoin_mut_eq a b m :
  try_rejoin_mut size a b m = try_rejoin size a b m.
Proof. reflexivity. Qed.

Lemma adjacent_dec a b :
  adjacent size a b <->
  (ptr a + Z.of_nat (len a) * Z.of_nat size =? ptr b) = true.
Proof. unfold adjacent. now rewrite Z.eqb_eq. Qed.

Lemma try_rejoin_adjacent a b m :
  adjacent size a b -> Z.of_nat (len a) + Z.of_nat (len b) <= usize_max ->
  try_rejoin size a b m = Ret (Some (mk_slice (ptr a) (len a + len b)), m).
Proof.
  intros H Hf. rewrite try_rejoin_eq. apply adjacent_dec in H. rewrite H.
  now rewrite (proj2 (Z.leb_le _ _) Hf).
Qed.

Lemma try_rejoin_overflow a b m :
  adjacent size a b -> usize_max < Z.of_nat (len a) + Z.of_nat (len b) ->
  try_rejoin size a b m = Panic add_overflow_msg.
Proof.
  intros H Hf. rewrite try_rejoin_eq. apply adjacent_dec in H. rewrite H.
  now rewrite (proj2 (Z.leb_gt _ _) Hf).
Qed.

Lemma try_rejoin_not_adjacent a b m :
  ~ adjacent size a b -> try_rejoin size a b m = Ret (None, m).
Proof.
  intros H. rewrite try_rejoin_eq.
  destruct (_ =? _) eqn:E; [|reflexivity].
  exfalso. apply H, adjacent_dec, E.
Qed.


End Facts.

(** ** The slice operations *)

Section SliceClaims.

Variable T : Type.
Variable size : nat.
Implicit Types (a b j buf : slice) (m : mem T).


(** C2: splitting a buffer [buf] (whose length, like every slice length,
    is a [usize]) at any [k <= len buf] into [buf[..k]] and [buf[k..]] and
    joining the halves gives back [buf], with [try_rejoin] and with
    [rejoin]. *)
Theorem split_rejoin_roundtrip buf k m :
  Z.of_nat (len buf) <= usize_max ->
  (k <= len buf)%nat ->
  (a <- index_to buf k ;; b <- index_from size buf k ;; try_rejoin size a b) m
  = Ret (Some buf, m) /\
  (a <- index_to buf k ;; b <- index_from size buf k ;; rejoin size a b) m
  = Ret (buf, m).
Proof.
  intros Hu Hk. unfold index_to, index_from.
  apply Nat.leb_le in Hk. rewrite Hk.
  assert (E : try_rejoin size (mk_slice (ptr buf) k)
                (mk_slice (elem_addr size (ptr buf) k) (len buf - k)) m
              = Ret (Some buf, m)).
  { apply Nat.leb_le in Hk.
    rewrite try_rejoin_adjacent.
    - destruct buf as [p n]; cbn in *.
      do 4 f_equal. lia.
    - unfold adjacent, elem_addr. reflexivity.
    - cbn [len]. lia. }
  split; cbn; [exact E|].
  unfold rejoin, bind at 1. rewrite E. reflexivity.
Qed.


(** C10: whether [try_rejoin] succeeds, and the view it returns, depend only
    on the addresses and lengths of the inputs, not on the stored values. *)
Theorem try_rejoin_content_independent a b (m1 m2 : mem T) :
  result_of (try_rejoin size a b m1) = result_of (try_rejoin size a b m2).
Proof.
  rewrite !try_rejoin_eq. destruct (_ =? _); [|reflexivity].
  now destruct (_ <=? _).
Qed.

End SliceClaims.

(** ** Zero-sized element types: the length addition can overflow *)

Lemma zst_big_len : Z.of_nat (len zst_big) = 9223372036854775808.
Proof. unfold zst_big. cbn [len]. apply Z2Nat.id. lia. Qed.

Lemma zst_big_ptr : ptr zst_big = 0.
Proof. reflexivity. Qed.

(** With a zero-sized element type every view is adjacent to itself. *)
Lemma adjacent_zst_self a : adjacent 0 a a.
Proof. unfold adjacent. lia. Qed.

(** [s.try_rejoin(s)] for [s = &[(); 1 << 63][..]]: [s] is adjacent to
    itself and [s.len() + s.len() = 2^64] overflows [usize]. *)
Lemma try_rejoin_zst_big {T} (m : mem T) :
  try_rejoin 0 zst_big zst_big m = Panic add_overflow_msg.
Proof.
  apply try_rejoin_overflow; [apply adjacent_zst_self|].
  rewrite zst_big_len. unfold usize_max. lia.
Qed.



(** C7: on the seven-element [i32] buffer of the tests, [buf[..3]] and
    [buf[4..]] (a gap) are rejected by [try_rejoin] and make [rejoin] panic;
    so are [buf[3..]] followed by [buf[..3]] (reversed order), while
    [buf[..3]] followed by [buf[3..]] joins to [buf]. *)
Theorem seven_gap_and_reversed_rejected {T} (p : Z) (m : mem T) :
  let buf := mk_slice p 7 in
  (a <- index_to buf 3 ;; b <- index_from 4 buf 4 ;; try_rejoin 4 a b) m
  = Ret (None, m) /\
  (a <- index_to buf 3 ;; b <- index_from 4 buf 4 ;; rejoin 4 a b) m
  = Panic not_adjacent_msg /\
  (a <- index_from 4 buf 3 ;; b <- index_to buf 3 ;; try_rejoin 4 a b) m
  = Ret (None, m) /\
  (a <- index_from 4 buf 3 ;; b <- index_to buf 3 ;; rejoin 4 a b) m
  = Panic not_adjacent_msg /\
  (a <- index_to buf 3 ;; b <- index_from 4 buf 3 ;; try_rejoin 4 a b) m
  = Ret (Some buf, m).
Proof.
  cbv zeta. unfold rejoin, index_to, index_from, elem_addr.
  cbn -[try_rejoin]. unfold bind.
  rewrite !try_rejoin_eq. cbn -[Z.add Z.eqb].
  rewrite !(proj2 (Z.eqb_neq _ _)) by lia.
  rewrite (proj2 (Z.eqb_eq _ _)) by lia.
  repeat split.
Qed.

(** ** Reads, writes and the mutable join *)

Section ReadWrite.

Variable T : Type.
Variable size : nat.
Implicit Types (a b j buf : slice) (m : mem T).

Lemma read_eq s i m :
  read size s i m =
  if (i <? len s)%nat then Ret (m (elem_addr size (ptr s) i), m)
  else Panic "index out of bounds".
Proof. unfold read. now destruct (_ <? _)%nat. Qed.

Lemma try_rejoin_some a b j m m' :
  try_rejoin size a b m = Ret (Some j, m') ->
  adjacent size a b /\ j = mk_slice (ptr a) (len a + len b) /\ m' = m.
Proof.
  rewrite try_rejoin_eq. destruct (_ =? _) eqn:E; [|discriminate].
  destruct (_ <=? _); [|discriminate].
  intros H. injection H as <- <-. split; [now apply adjacent_dec|auto].
Qed.

(** Reading a view at [o + i] when the view starts at offset [o] of
    [buf] and [i] is in range of both. *)
Lemma read_sub buf o s i m :
  ptr s = elem_addr size (ptr buf) o ->
  (o + len s <= len buf)%nat -> (i < len s)%nat ->
  read size s i m = read size buf (o + i) m.
Proof.
  intros Hp Hl Hi. rewrite !read_eq.
  rewrite (proj2 (Nat.ltb_lt _ _)) by lia.
  rewrite (proj2 (Nat.ltb_lt _ _)) by lia.
  rewrite Hp, elem_addr_add. reflexivity.
Qed.

(** C3: a joined view reads, at every index, what [a] reads there when the
    index is below [len a] and what [b] reads at [i - len a] otherwise (out
    of range both panic alike); and it reads at every index the element of
    the buffer the two views were cut from. *)
Theorem try_rejoin_read a b j m m' :
  try_rejoin size a b m = Ret (Some j, m') ->
  (forall i, read size j i m =
             if (i <? len a)%nat then read size a i m
             else read size b (i - len a) m) /\
  (forall buf o i, ptr a = elem_addr size (ptr buf) o ->
     (o + len j <= len buf)%nat -> (i < len j)%nat ->
     read size j i m = read size buf (o + i) m).
Proof.
  intros H. apply try_rejoin_some in H as (Hadj & -> & _).
  split.
  - intros i. rewrite !read_eq. cbn [ptr len].
    destruct (Nat.ltb_spec i (len a)) as [Hi|Hi].
    + rewrite (proj2 (Nat.ltb_lt _ _)) by lia. reflexivity.
    + unfold adjacent in Hadj.
      destruct (Nat.ltb_spec i (len a + len b)) as [Hi'|Hi'].
      * rewrite (proj2 (Nat.ltb_lt _ _)) by lia.
        unfold elem_addr. rewrite <- Hadj, Nat2Z.inj_sub by lia.
        do 3 f_equal. lia.
      * rewrite (proj2 (Nat.ltb_ge _ _)) by lia. reflexivity.
  - intros buf o i Hp Hl Hi. now apply read_sub.
Qed.

(** C5: [try_rejoin_mut] decides and builds exactly as [try_rejoin]; a
    write through the view it returns is seen when the buffer the two views
    were cut from is read at the same position. *)
Theorem try_rejoin_mut_refines a b m :
  try_rejoin_mut size a b m = try_rejoin size a b m /\
  (forall j m1 buf o i x,
     try_rejoin_mut size a b m = Ret (Some j, m1) ->
     ptr a = elem_addr size (ptr buf) o ->
     (o + len j <= len buf)%nat -> (i < len j)%nat ->
     exists m2, (_ <- write size j i x ;; read size buf (o + i)) m1 = Ret (x, m2)).
Proof.
  split; [apply try_rejoin_mut_eq|].
  intros j m1 buf o i x H Hp Hl Hi.
  rewrite try_rejoin_mut_eq in H.
  apply try_rejoin_some in H as (_ & -> & ->). cbn [ptr len] in *.
  unfold write, bind. cbn [ptr len].
  rewrite (proj2 (Nat.ltb_lt _ _)) by lia. cbn.
  rewrite read_eq, (proj2 (Nat.ltb_lt _ _)) by lia.
  rewrite Hp, elem_addr_add, Z.eqb_refl. eauto.
Qed.

End ReadWrite.



(** ** The panicking forms *)

Lemma str_try_rejoin_eq (sa sb : str_ref) (bm : byte_mem) :
  str_try_rejoin sa sb bm =
  if sptr sa + Z.of_nat (slen sa) * Z.of_nat 1 =? sptr sb
  then if Z.of_nat (slen sa) + Z.of_nat (slen sb) <=? usize_max
       then Ret (Some (mk_str (sptr sa) (slen sa + slen sb)), bm)
       else Panic add_overflow_msg
  else Ret (None, bm).
Proof.
  unfold str_try_rejoin, bind. rewrite try_rejoin_eq. cbn [as_bytes ptr len].
  destruct (_ =? _); [|reflexivity]. now destruct (_ <=? _).
Qed.

Lemma rejoin_eq {T} size (a b : slice) (m : mem T) :
  rejoin size a b m =
  match try_rejoin size a b m with
  | Ret (Some j, m') => Ret (j, m')
  | Ret (None, _) => Panic not_adjacent_msg
  | Panic msg => Panic msg
  end.
Proof.
  unfold rejoin, bind. rewrite try_rejoin_eq.
  destruct (_ =? _); [|reflexivity]. now destruct (_ <=? _).
Qed.

Lemma str_rejoin_eq (sa sb : str_ref) (bm : byte_mem) :
  str_rejoin sa sb bm =
  match str_try_rejoin sa sb bm with
  | Ret (Some r, bm') => Ret (r, bm')
  | Ret (None, _) => Panic str_not_adjacent_msg
  | Panic msg => Panic msg
  end.
Proof.
  unfold str_rejoin, bind at 1. rewrite str_try_rejoin_eq.
  destruct (_ =? _); [|reflexivity]. now destruct (_ <=? _).
Qed.

(** C4: [rejoin], [rejoin_mut] and the string [rejoin] return the view
    their fallible counterparts return on adjacent inputs, panic with the
    message "the input (string) slices must be adjacent in memory" on
    non-adjacent inputs, and return a view only on adjacent inputs. *)
Theorem rejoin_panics_unless_adjacent {T} (size : nat) (a b : slice) (m : mem T)
    (sa sb : str_ref) (bm : byte_mem) :
  (forall j m', try_rejoin size a b m = Ret (Some j, m') ->
     rejoin size a b m = Ret (j, m') /\ rejoin_mut size a b m = Ret (j, m')) /\
  (forall r bm', str_try_rejoin sa sb bm = Ret (Some r, bm') ->
     str_rejoin sa sb bm = Ret (r, bm')) /\
  (~ adjacent size a b ->
     rejoin size a b m = Panic not_adjacent_msg /\
     rejoin_mut size a b m = Panic not_adjacent_msg) /\
  (~ adjacent 1 (as_bytes sa) (as_bytes sb) ->
     str_rejoin sa sb bm = Panic str_not_adjacent_msg) /\
  (forall j m', rejoin size a b m = Ret (j, m') \/ rejoin_mut size a b m = Ret (j, m') ->
     adjacent size a b) /\
  (forall r bm', str_rejoin sa sb bm = Ret (r, bm') ->
     adjacent 1 (as_bytes sa) (as_bytes sb)).
Proof.
  rewrite !rejoin_eq, !str_rejoin_eq.
  split; [|split; [|split; [|split; [|split]]]].
  - intros j m' ->. auto.
  - intros r bm' ->. reflexivity.
  - intros H. now rewrite try_rejoin_not_adjacent.
  - intros H. rewrite str_try_rejoin_eq.
    destruct (_ =? _) eqn:E; [|reflexivity].
    exfalso. apply H, adjacent_dec, E.
  - intros j m' H. rewrite try_rejoin_eq in H.
    apply adjacent_dec. destruct (_ =? _); [reflexivity|].
    destruct H; discriminate.
  - intros r bm' H. rewrite str_try_rejoin_eq in H.
    apply adjacent_dec. destruct (_ =? _); [reflexivity|discriminate].
Qed.

(** ** UTF-8 is closed under concatenation *)

Lemma utf8_valid_cons b0 r :
  utf8_valid (b0 :: r) =
  if in_range 0x00 0x7F b0 then utf8_valid r
  else if in_range 0xC2 0xDF b0 then
    match r with
    | b1 :: r1 => cont_byte b1 && utf8_valid r1
    | [] => false
    end
  else if in_range 0xE0 0xEF b0 then
    match r with
    | b1 :: b2 :: r2 => second_ok3 b0 b1 && cont_byte b2 && utf8_valid r2
    | _ => false
    end
  else if in_range 0xF0 0xF4 b0 then
    match r with
    | b1 :: b2 :: b3 :: r3 =>
        second_ok4 b0 b1 && cont_byte b2 && cont_byte b3 && utf8_valid r3
    | _ => false
    end
  else false.
Proof. reflexivity. Qed.

Lemma utf8_valid_app_aux (n : nat) (x y : list Z) :
  (List.length x <= n)%nat -> utf8_valid x = true -> utf8_valid y = true ->
  utf8_valid (x ++ y)%list = true.
Proof.
  revert x. induction n as [|n IH]; intros x Hn Hx Hy.
  - destruct x; [exact Hy|cbn in Hn; lia].
  - destruct x as [|b0 r]; [exact Hy|]. cbn [app List.length] in *.
    rewrite utf8_valid_cons in Hx |- *.
    destruct (in_range 0x00 0x7F b0); [apply IH; auto; lia|].
    destruct (in_range 0xC2 0xDF b0).
    { destruct r as [|b1 r1]; [discriminate|]. cbn [app List.length] in *.
      apply andb_prop in Hx as [H1 H2]. rewrite H1, IH; auto; lia. }
    destruct (in_range 0xE0 0xEF b0).
    { destruct r as [|b1 [|b2 r2]]; try discriminate. cbn [app List.length] in *.
      apply andb_prop in Hx as [Hx H3]. apply andb_prop in Hx as [H1 H2].
      rewrite H1, H2, IH; auto; lia. }
    destruct (in_range 0xF0 0xF4 b0); [|discriminate].
    destruct r as [|b1 [|b2 [|b3 r3]]]; try discriminate. cbn [app List.length] in *.
    apply andb_prop in Hx as [Hx H4]. apply andb_prop in Hx as [Hx H3].
    apply andb_prop in Hx as [H1 H2].
    rewrite H1, H2, H3, IH; auto; lia.
Qed.

Lemma utf8_valid_app (x y : list Z) :
  utf8_valid x = true -> utf8_valid y = true -> utf8_valid (x ++ y)%list = true.
Proof. apply (utf8_valid_app_aux (List.length x)). lia. Qed.

(** ** Joining string slices *)

Lemma map_seq_shift {T} size (m : mem T) p k n j :
  map (fun i => m (elem_addr size p i)) (seq (k + j) n) =
  map (fun i => m (elem_addr size (elem_addr size p k) i)) (seq j n).
Proof.
  revert j. induction n as [|n IH]; intros j; [reflexivity|].
  cbn [seq map]. rewrite elem_addr_add, <- Nat.add_succ_r, IH. reflexivity.
Qed.

(** The contents of a joined view are the contents of [a], then of [b]. *)
Lemma contents_join {T} size (m : mem T) a b :
  adjacent size a b ->
  contents size m (mk_slice (ptr a) (len a + len b)) =
  (contents size m a ++ contents size m b)%list.
Proof.
  intros H. unfold contents. cbn [ptr len].
  rewrite seq_app, map_app. f_equal.
  rewrite <- (Nat.add_0_r (0 + len a)), map_seq_shift. cbn [Nat.add].
  unfold adjacent in H. unfold elem_addr at 2. rewrite H. reflexivity.
Qed.

Lemma char_boundary_le s k bm bm' :
  is_char_boundary s k bm = Ret (true, bm') -> (k <= slen s)%nat.
Proof.
  unfold is_char_boundary.
  destruct (Nat.eqb_spec k 0); [lia|].
  destruct (Nat.leb_spec (slen s) k); [|lia].
  unfold ret. intros E. injection E as E _. apply Nat.eqb_eq in E. lia.
Qed.

(** C6: splitting a valid [&str] [s] at a char boundary [k] and joining
    [s[..k]] with [s[k..]] gives back [s], whose bytes are valid UTF-8;
    in general a successful string join of two valid spans holds their
    bytes one after the other, which is valid UTF-8; the string join
    succeeds exactly when the byte-level join does, and reads no byte of
    the store (no re-validation).  The length of [s], as every [&str]
    length, is a [usize]. *)
Theorem str_split_rejoin (bm : byte_mem) (s : str_ref) (k : nat) :
  utf8_valid (str_bytes bm s) = true ->
  is_char_boundary s k bm = Ret (true, bm) ->
  Z.of_nat (slen s) <= usize_max ->
  (a <- str_index_to s k ;; b <- str_index_from s k ;; str_try_rejoin a b) bm
  = Ret (Some s, bm) /\
  utf8_valid (str_bytes bm s) = true /\
  (forall sa sb r bm',
     str_try_rejoin sa sb bm = Ret (Some r, bm') ->
     utf8_valid (str_bytes bm sa) = true -> utf8_valid (str_bytes bm sb) = true ->
     str_bytes bm' r = (str_bytes bm sa ++ str_bytes bm sb)%list /\
     utf8_valid (str_bytes bm' r) = true) /\
  (forall sa sb,
     (exists r, str_try_rejoin sa sb bm = Ret (Some r, bm)) <->
     (exists v, try_rejoin 1 (as_bytes sa) (as_bytes sb) bm = Ret (Some v, bm))) /\
  (forall sa sb (bm2 : byte_mem),
     result_of (str_try_rejoin sa sb bm) = result_of (str_try_rejoin sa sb bm2)).
Proof.
  intros Hv Hcb Hu. split; [|split; [exact Hv|split; [|split]]].
  - pose proof (char_boundary_le _ _ _ _ Hcb) as Hk.
    cbv [bind str_index_to str_index_from]. rewrite Hcb. cbv [ret].
    rewrite Hcb. cbv [ret]. rewrite str_try_rejoin_eq. cbn [sptr slen]. unfold elem_addr.
    rewrite Z.eqb_refl, (proj2 (Z.leb_le _ _)) by lia. destruct s as [p n]. cbn in *.
    do 4 f_equal. lia.
  - intros sa sb r bm' H Ha Hb. rewrite str_try_rejoin_eq in H.
    destruct (_ =? _) eqn:E; [|discriminate].
    destruct (_ <=? _); [|discriminate].
    injection H as <- <-. apply (adjacent_dec 1 (as_bytes sa) (as_bytes sb)) in E.
    pose proof (contents_join 1 bm _ _ E) as J.
    unfold str_bytes in *. cbv [as_bytes] in *. cbn [ptr len sptr slen] in *.
    rewrite J. split; [reflexivity|]. now apply utf8_valid_app.
  - intros sa sb. rewrite str_try_rejoin_eq, try_rejoin_eq. cbn [as_bytes ptr len].
    destruct (_ =? _); [destruct (_ <=? _)|];
      split; intros [x Hx]; try discriminate; eauto.
  - intros sa sb bm2. rewrite !str_try_rejoin_eq.
    destruct (_ =? _); [|reflexivity]. now destruct (_ <=? _).
Qed.

(** ** Witnesses on concrete inputs *)

Lemma split_rejoin_roundtrip_witness :
  Z.of_nat (len buf7) <= usize_max /\ (3 <= len buf7)%nat /\
  (a <- index_to buf7 3 ;; b <- index_from 4 buf7 3 ;; rejoin 4 a b) zero_mem
  = Ret (buf7, zero_mem).
Proof.
  assert (Hu : Z.of_nat (len buf7) <= usize_max) by (cbn; unfold usize_max; lia).
  split; [exact Hu|split; [cbn; lia|]].
  exact (proj2 (split_rejoin_roundtrip Z 4 buf7 3 zero_mem Hu ltac:(cbn; lia))).
Defined.

Lemma try_rejoin_read_witness :
  try_rejoin 4 (mk_slice 1000 3) (mk_slice 1012 4) seven_mem
  = Ret (Some buf7, seven_mem) /\
  read 4 buf7 5 seven_mem = read 4 (mk_slice 1012 4) 2 seven_mem /\
  read 4 buf7 5 seven_mem = Ret (5, seven_mem).
Proof.
  assert (H : try_rejoin 4 (mk_slice 1000 3) (mk_slice 1012 4) seven_mem
              = Ret (Some buf7, seven_mem)) by reflexivity.
  split; [exact H|split; [|reflexivity]].
  exact (proj1 (try_rejoin_read Z 4 _ _ _ _ _ H) 5%nat).
Defined.

Lemma str_split_rejoin_witness :
  utf8_valid (str_bytes cea_mem cea) = true /\
  is_char_boundary cea 3 cea_mem = Ret (true, cea_mem) /\
  Z.of_nat (slen cea) <= usize_max /\
  (a <- str_index_to cea 3 ;; b <- str_index_from cea 3 ;; str_try_rejoin a b) cea_mem
  = Ret (Some cea, cea_mem).
Proof.
  assert (Hv : utf8_valid (str_bytes cea_mem cea) = true) by reflexivity.
  assert (Hb : is_char_boundary cea 3 cea_mem = Ret (true, cea_mem)) by reflexivity.
  assert (Hu : Z.of_nat (slen cea) <= usize_max) by (cbn; unfold usize_max; lia).
  split; [exact Hv|split; [exact Hb|split; [exact Hu|]]].
  exact (proj1 (str_split_rejoin cea_mem cea 3 Hv Hb Hu)).
Defined.

(** Inside ["é"] there is no char boundary: [cea[..2]] panics. *)
Example cea_not_boundary :
  str_index_to cea 2 cea_mem = Panic "byte index is not a char boundary".
Proof. reflexivity. Qed.

(** ** How the joins compose *)

Ltac decide_addrs :=
  repeat match goal with
         | |- context [?x =? ?y] => destruct (Z.eqb_spec x y)
         | |- context [?x <=? ?y] => destruct (Z.leb_spec x y)
         end;
  cbn [ptr len sptr slen] in *; try lia.

(** When the three lengths sum to a [usize], or the element type has a
    non-zero size and the views lie in the address space, no length
    addition of a join of [a], [b], [c] in either order overflows. *)
Lemma assoc_fits (size : nat) (a b c : slice) :
  Z.of_nat (len a) + Z.of_nat (len b) + Z.of_nat (len c) <= usize_max \/
  ((0 < size)%nat /\ in_space size a /\ in_space size b /\ in_space size c) ->
  (adjacent size a b -> Z.of_nat (len a) + Z.of_nat (len b) <= usize_max) /\
  (adjacent size b c -> Z.of_nat (len b) + Z.of_nat (len c) <= usize_max) /\
  (adjacent size a b -> adjacent size b c ->
   Z.of_nat (len a) + Z.of_nat (len b) + Z.of_nat (len c) <= usize_max).
Proof.
  unfold adjacent, in_space.
  intros [H | (Hs & [Ha1 Ha2] & [Hb1 Hb2] & [Hc1 Hc2])].
  - repeat split; intros; lia.
  - repeat split; intros; nia.
Qed.

(** Joining three slices left to right or right to left gives the same
    result, the same view or the same panic, when no length addition can
    overflow: the three lengths sum to a [usize], or the element type has a
    non-zero size and the views lie in the address space. *)
Theorem rejoin_assoc {T} (size : nat) (a b c : slice) (m : mem T) :
  Z.of_nat (len a) + Z.of_nat (len b) + Z.of_nat (len c) <= usize_max \/
  ((0 < size)%nat /\ in_space size a /\ in_space size b /\ in_space size c) ->
  (ab <- rejoin size a b ;; rejoin size ab c) m =
  (bc <- rejoin size b c ;; rejoin size a bc) m.
Proof.
  intros H3. destruct (assoc_fits size a b c H3) as (F1 & F2 & F3).
  unfold adjacent in F1, F2, F3. clear H3.
  destruct (Z.eq_dec (ptr a + Z.of_nat (len a) * Z.of_nat size) (ptr b)) as [Eab|Eab];
  destruct (Z.eq_dec (ptr b + Z.of_nat (len b) * Z.of_nat size) (ptr c)) as [Ebc|Ebc];
  [pose proof (F1 Eab); pose proof (F2 Ebc); pose proof (F3 Eab Ebc)
  |pose proof (F1 Eab)|pose proof (F2 Ebc)|idtac]; clear F1 F2 F3;
  unfold bind at 1 2; rewrite !rejoin_eq, !try_rejoin_eq;
  decide_addrs; rewrite ?rejoin_eq, ?try_rejoin_eq; decide_addrs;
    try reflexivity; rewrite Nat2Z.inj_add in *; try lia;
  rewrite Nat.add_assoc; reflexivity.
Qed.

(** Without a bound the two orders can differ: with [b = c] the slice
    [&[(); 1 << 63][..]] and an empty [a] elsewhere, left to right panics
    because [a] and [b] are not adjacent, right to left because
    [b.len() + c.len()] overflows. *)
Example rejoin_assoc_zst_overflow :
  (ab <- rejoin 0 (mk_slice 8 0) zst_big ;; rejoin 0 ab zst_big) unit_mem
  = Panic not_adjacent_msg /\
  (bc <- rejoin 0 zst_big zst_big ;; rejoin 0 (mk_slice 8 0) bc) unit_mem
  = Panic add_overflow_msg.
Proof.
  split; unfold bind at 1.
  - rewrite rejoin_eq, try_rejoin_not_adjacent; [reflexivity|].
    unfold adjacent. rewrite zst_big_ptr. cbn [ptr len]. lia.
  - rewrite rejoin_eq, (try_rejoin_zst_big unit_mem). reflexivity.
Qed.

(** The same for string slices, which lie in the address space. *)
Theorem str_rejoin_assoc (a b c : str_ref) (bm : byte_mem) :
  in_space 1 (as_bytes a) -> in_space 1 (as_bytes b) -> in_space 1 (as_bytes c) ->
  (ab <- str_rejoin a b ;; str_rejoin ab c) bm =
  (bc <- str_rejoin b c ;; str_rejoin a bc) bm.
Proof.
  unfold in_space, as_bytes. cbn [ptr len]. change (Z.of_nat 1) with 1.
  intros Ha Hb Hc.
  unfold bind at 1 2. rewrite !str_rejoin_eq, !str_try_rejoin_eq.
  decide_addrs; rewrite ?str_rejoin_eq, ?str_try_rejoin_eq; decide_addrs;
    try reflexivity; rewrite Nat2Z.inj_add in *; try lia.
  rewrite Nat.add_assoc. reflexivity.
Qed.

(** The empty tail [a[a.len()..]] joins after [a], and the empty head
    [b[..0]] joins before [b], each giving back the other view (the
    lengths of [a] and [b], as every slice length, are [usize] values). *)
Theorem try_rejoin_empty_units {T} (size : nat) (a b : slice) (m : mem T) :
  Z.of_nat (len a) <= usize_max -> Z.of_nat (len b) <= usize_max ->
  (e <- index_from size a (len a) ;; try_rejoin size a e) m = Ret (Some a, m) /\
  (e <- index_to b 0 ;; try_rejoin size e b) m = Ret (Some b, m).
Proof.
  intros Ha Hb. unfold bind, index_from, index_to.
  rewrite Nat.leb_refl. cbn [Nat.leb ret].
  rewrite !try_rejoin_eq. unfold elem_addr. cbn [ptr len].
  rewrite Z.eqb_refl, Nat.sub_diag, Nat.add_0_r. change (Z.of_nat 0) with 0.
  rewrite Z.mul_0_l, !Z.add_0_r, Z.eqb_refl.
  rewrite !(proj2 (Z.leb_le _ _)) by lia.
  destruct a, b. split; reflexivity.
Qed.

(** ** Writing through a joined mutable view *)

Section CopyFromSlice.

Variable T : Type.
Variable size : nat.
Hypothesis size_pos : (0 < size)%nat.

Lemma elem_addr_inj p i j : elem_addr size p i = elem_addr size p j -> i = j.
Proof. unfold elem_addr. intros H. nia. Qed.

Lemma write_all_spec (dst : slice) (vals : list T) (d : T) :
  forall i (m : mem T), (i + List.length vals <= len dst)%nat ->
  exists m', write_all size dst i vals m = Ret (tt, m') /\
    (forall j, (j < List.length vals)%nat ->
       m' (elem_addr size (ptr dst) (i + j)) = nth j vals d) /\
    (forall j, (j < i)%nat ->
       m' (elem_addr size (ptr dst) j) = m (elem_addr size (ptr dst) j)).
Proof.
  induction vals as [|v vs IH]; intros i m Hl.
  - exists m. cbn. split; [reflexivity|split; intros j Hj; [lia|reflexivity]].
  - cbn [List.length] in Hl.
    set (m1 := fun a => if a =? elem_addr size (ptr dst) i then v else m a).
    destruct (IH (S i) m1 ltac:(lia)) as (m' & Hrun & Hnew & Hold).
    exists m'. split; [|split].
    + cbn [write_all]. unfold bind, write.
      rewrite (proj2 (Nat.ltb_lt _ _)) by lia. exact Hrun.
    + intros [|j] Hj.
      * rewrite Nat.add_0_r, Hold by lia. unfold m1. now rewrite Z.eqb_refl.
      * rewrite <- Nat.add_succ_comm. cbn [nth]. apply Hnew. cbn in Hj. lia.
    + intros j Hj. rewrite Hold by lia. unfold m1.
      destruct (Z.eqb_spec (elem_addr size (ptr dst) j) (elem_addr size (ptr dst) i))
        as [E|E]; [apply elem_addr_inj in E; lia|reflexivity].
Qed.

Lemma write_all_contents (dst : slice) (vals : list T) (m : mem T) :
  len dst = List.length vals ->
  exists m', write_all size dst 0 vals m = Ret (tt, m') /\ contents size m' dst = vals.
Proof.
  intros Hl. destruct vals as [|d ds] eqn:Ev.
  - exists m. unfold contents. rewrite Hl. split; reflexivity.
  - rewrite <- Ev in *.
    destruct (write_all_spec dst vals d 0 m ltac:(lia)) as (m' & Hrun & Hnew & _).
    exists m'. split; [exact Hrun|].
    apply (nth_ext _ _ d d).
    + unfold contents. now rewrite length_map, length_seq.
    + intros j Hj. unfold contents in *. rewrite length_map, length_seq in Hj.
      rewrite (nth_indep _ d ((fun i => m' (elem_addr size (ptr dst) i)) 0%nat))
        by now rewrite length_map, length_seq.
      pose proof (map_nth (fun i => m' (elem_addr size (ptr dst) i))
                    (seq 0 (len dst)) 0%nat j) as Hm.
      cbv beta in Hm. rewrite Hm, seq_nth by exact Hj. apply (Hnew j). lia.
Qed.

End CopyFromSlice.

(** As in [test_rejoin_mut]: split a buffer with [split_at_mut] at any
    [k <= len], join the halves with [rejoin_mut] and [copy_from_slice]
    values of the buffer's length into the joined view: the buffer then
    holds exactly those values (for an element type of non-zero size, and a
    buffer whose length is a [usize]). *)
Theorem split_rejoin_mut_copy {T} (size : nat) (buf : slice) (k : nat)
    (vals : list T) (m : mem T) :
  (0 < size)%nat -> Z.of_nat (len buf) <= usize_max ->
  (k <= len buf)%nat -> List.length vals = len buf ->
  exists m',
    (ab <- split_at_mut size buf k ;;
     j <- rejoin_mut size (fst ab) (snd ab) ;;
     copy_from_slice size j vals) m = Ret (tt, m') /\
    contents size m' buf = vals.
Proof.
  intros Hs Hu Hk Hl.
  destruct (write_all_contents T size Hs buf vals m ltac:(lia)) as (m' & Hrun & Hc).
  exists m'. split; [|exact Hc].
  unfold split_at_mut. rewrite (proj2 (Nat.leb_le _ _)) by exact Hk.
  unfold bind at 1, ret. cbn [fst snd].
  assert (Hj : rejoin_mut size (mk_slice (ptr buf) k)
                 (mk_slice (elem_addr size (ptr buf) k) (len buf - k)) m
               = Ret (buf, m)).
  { unfold rejoin_mut. change (rejoin size (mk_slice (ptr buf) k)
      (mk_slice (elem_addr size (ptr buf) k) (len buf - k)) m = Ret (buf, m)).
    rewrite rejoin_eq, try_rejoin_adjacent; [|reflexivity|cbn [len]; lia].
    destruct buf as [p n]. cbn in *. do 3 f_equal. lia. }
  unfold bind at 1. rewrite Hj.
  unfold copy_from_slice. rewrite (proj2 (Nat.eqb_eq _ _)) by lia. exact Hrun.
Qed.

(** ** [split_by_streak] cuts its input into adjacent non-empty runs *)

Lemma next_or_0_len l : (List.length (snd (next_or_0 l)) <= List.length l)%nat.
Proof. destruct l; cbn; lia. Qed.

Lemma next_code_point_shorter l c r :
  next_code_point l = Some (c, r) -> (List.length r < List.length l)%nat.
Proof.
  destruct l as [|x t]; [discriminate|]. unfold next_code_point.
  pose proof (next_or_0_len t) as L1.
  destruct (next_or_0 t) as [y r1]. cbn [snd] in L1.
  pose proof (next_or_0_len r1) as L2.
  destruct (next_or_0 r1) as [z r2]. cbn [snd] in L2.
  pose proof (next_or_0_len r2) as L3.
  destruct (next_or_0 r2) as [w r3]. cbn [snd] in L3.
  cbn [List.length].
  destruct (x <? 128); [intros H; injection H as _ <-; lia|].
  destruct (0xE0 <=? x); [destruct (0xF0 <=? x)|];
    intros H; injection H as _ <-; lia.
Qed.

(** Offsets strictly increasing, each above [lo] and below [hi]. *)
Fixpoint offs_ok (lo hi : nat) (ci : list (nat * Z)) : Prop :=
  match ci with
  | [] => True
  | (i, _) :: r => (lo < i < hi)%nat /\ offs_ok i hi r
  end.

Lemma offs_ok_lower lo lo' hi ci :
  (lo' <= lo)%nat -> offs_ok lo hi ci -> offs_ok lo' hi ci.
Proof. destruct ci as [|[i c] r]; cbn; [auto|]. intros ? [? ?]. split; [lia|auto]. Qed.

(** [char_indices] starts at the given offset and then strictly increases,
    staying below the end of the bytes. *)
Lemma char_indices_from_offsets fuel off l :
  char_indices_from fuel off l = [] \/
  exists c rest, char_indices_from fuel off l = (off, c) :: rest /\
                 (0 < List.length l)%nat /\
                 offs_ok off (off + List.length l) rest.
Proof.
  revert off l. induction fuel as [|fuel IH]; intros off l; [now left|].
  cbn [char_indices_from].
  destruct (next_code_point l) as [[c r]|] eqn:E; [|now left].
  right. exists c, (char_indices_from fuel (off + (List.length l - List.length r)) r).
  apply next_code_point_shorter in E.
  split; [reflexivity|split; [lia|]].
  destruct (IH (off + (List.length l - List.length r))%nat r)
    as [-> | (c' & rest' & -> & Hr & Hok)]; [exact I|].
  cbn. split; [lia|].
  replace (off + List.length l)%nat
    with (off + (List.length l - List.length r) + List.length r)%nat by lia.
  exact Hok.
Qed.

Lemma tiles_app s l1 e1 l2 e2 :
  tiles s l1 e1 -> tiles e1 l2 e2 -> tiles s (l1 ++ l2)%list e2.
Proof.
  revert s. induction l1 as [|p l1 IH]; intros s H1 H2; cbn in *.
  - now subst.
  - destruct H1 as [Hp H1]. split; [exact Hp|]. now apply IH.
Qed.

Lemma is_char_boundary_state s k bm b bm' :
  is_char_boundary s k bm = Ret (b, bm') -> bm' = bm.
Proof.
  unfold is_char_boundary.
  destruct (k =? 0)%nat; [intros H; now injection H|].
  destruct (slen s <=? k)%nat; [intros H; now injection H|].
  unfold bind. rewrite read_eq.
  destruct (k <? _)%nat; [|discriminate]. intros H. now injection H.
Qed.

Lemma str_index_range_ret s a b bm p bm' :
  str_index_range s a b bm = Ret (p, bm') ->
  bm' = bm /\ (a <= b)%nat /\ p = mk_str (elem_addr 1 (sptr s) a) (b - a).
Proof.
  unfold str_index_range.
  destruct (Nat.leb_spec a b) as [Hab|]; [|discriminate].
  unfold bind. destruct (is_char_boundary s a bm) as [[ok1 bm1]|] eqn:E1; [|discriminate].
  apply is_char_boundary_state in E1 as ->.
  destruct ok1; [|discriminate].
  destruct (is_char_boundary s b bm) as [[ok2 bm2]|] eqn:E2; [|discriminate].
  apply is_char_boundary_state in E2 as ->.
  destruct ok2; [|discriminate].
  intros H. injection H as <- <-. auto.
Qed.

Lemma str_index_from_ret s k bm p bm' :
  str_index_from s k bm = Ret (p, bm') ->
  bm' = bm /\ (k <= slen s)%nat /\ p = mk_str (elem_addr 1 (sptr s) k) (slen s - k).
Proof.
  unfold str_index_from, bind.
  destruct (is_char_boundary s k bm) as [[ok bm1]|] eqn:E; [|discriminate].
  pose proof (is_char_boundary_state _ _ _ _ _ E) as ->.
  destruct ok; [|discriminate].
  apply char_boundary_le in E.
  intros H. injection H as <- <-. auto.
Qed.

(** The loop: every piece it pushes is non-empty, and the pieces tile the
    bytes from [last_idx] on to the final [last_idx]. *)
Lemma streak_loop_spec input ci :
  forall lc li out bm lc' li' out' bm',
  offs_ok li (slen input) ci ->
  streak_loop input ci lc li out bm = Ret ((lc', li', out'), bm') ->
  bm' = bm /\ (li' = li \/ (li < li' < slen input)%nat) /\
  exists new, out' = (out ++ new)%list /\
    tiles (elem_addr 1 (sptr input) li) new (elem_addr 1 (sptr input) li') /\
    Forall (fun p => (0 < slen p)%nat) new.
Proof.
  induction ci as [|[i c] rest IH];
    intros lc li out bm lc' li' out' bm' Hok H; cbn [streak_loop] in H.
  - injection H as <- <- <- <-.
    split; [reflexivity|split; [now left|]].
    exists []. rewrite app_nil_r. cbn. auto.
  - destruct Hok as [Hi Hok].
    destruct (negb (lc =? c)).
    + unfold bind in H.
      destruct (str_index_range input li i bm) as [[p bm1]|] eqn:E; [|discriminate].
      apply str_index_range_ret in E as (-> & _ & ->).
      destruct (IH _ _ _ _ _ _ _ _ Hok H) as (-> & Hli & new & -> & Ht & Hf).
      split; [reflexivity|split; [right; lia|]].
      exists (mk_str (elem_addr 1 (sptr input) li) (i - li) :: new).
      rewrite <- app_assoc. split; [reflexivity|split].
      * cbn. split; [reflexivity|]. unfold elem_addr in *.
        rewrite Nat2Z.inj_sub by lia.
        replace (sptr input + Z.of_nat li * Z.of_nat 1 + (Z.of_nat i - Z.of_nat li))
          with (sptr input + Z.of_nat i * Z.of_nat 1) by lia.
        exact Ht.
      * constructor; [cbn; lia|exact Hf].
    + apply offs_ok_lower with (lo' := li) in Hok; [|lia].
      exact (IH _ _ _ _ _ _ _ _ Hok H).
Qed.

Lemma tiles_nth_adjacent s l e :
  tiles s l e -> forall j p q,
  nth_error l j = Some p -> nth_error l (S j) = Some q ->
  sptr q = sptr p + Z.of_nat (slen p).
Proof.
  revert s. induction l as [|p0 l IH]; intros s Ht j p q Hp Hq; [destruct j; discriminate|].
  destruct Ht as [_ Ht]. destruct j as [|j]; cbn in Hp, Hq.
  - injection Hp as <-. destruct l as [|q0 l]; [discriminate|].
    injection Hq as <-. destruct Ht as [Hq _]. exact Hq.
  - exact (IH _ Ht j p q Hp Hq).
Qed.

Lemma tiles_le s l e : tiles s l e -> (forall p, In p l -> 0 <= Z.of_nat (slen p)) -> s <= e.
Proof.
  revert s. induction l as [|p l IH]; intros s Ht Hn; cbn in Ht.
  - lia.
  - destruct Ht as [<- Ht].
    assert (H0 := Hn p (or_introl eq_refl)).
    assert (H1 := IH _ Ht (fun q Hq => Hn q (or_intror Hq))). lia.
Qed.

(** Every piece of a tiling lies between its two ends. *)
Lemma tiles_within s l e :
  tiles s l e -> forall p, In p l -> s <= sptr p /\ sptr p + Z.of_nat (slen p) <= e.
Proof.
  revert s. induction l as [|p0 l IH]; intros s Ht p Hp; [contradiction|].
  destruct Ht as [<- Ht]. destruct Hp as [<- | Hp].
  - split; [lia|]. apply (tiles_le _ _ _ Ht). intros q _. lia.
  - destruct (IH _ Ht p Hp). lia.
Qed.

Lemma str_bytes_length bm s : List.length (str_bytes bm s) = slen s.
Proof. unfold str_bytes, contents. now rewrite length_map, length_seq. Qed.

(** The documented splitter leaves the store alone and returns non-empty
    pieces that tile its input from its first to its last byte (none for an
    empty input); any two consecutive pieces are adjacent, so [rejoin]
    joins them into the span covering both (the input length, as every
    [&str] length, is a [usize]). *)
Theorem split_by_streak_tiles (input : str_ref) (bm : byte_mem) ps bm' :
  Z.of_nat (slen input) <= usize_max ->
  split_by_streak input bm = Ret (ps, bm') ->
  bm' = bm /\
  tiles (sptr input) ps (sptr input + Z.of_nat (slen input)) /\
  Forall (fun p => (0 < slen p)%nat) ps /\
  (forall j p q, nth_error ps j = Some p -> nth_error ps (S j) = Some q ->
     str_rejoin p q bm = Ret (mk_str (sptr p) (slen p + slen q), bm)).
Proof.
  intros Hu H.
  assert (Hmain : bm' = bm /\
                  tiles (sptr input) ps (sptr input + Z.of_nat (slen input)) /\
                  Forall (fun p => (0 < slen p)%nat) ps).
  { unfold split_by_streak in H.
    destruct (Nat.eqb_spec (slen input) 0) as [E0|E0].
    - injection H as <- <-. rewrite E0. cbn. split; [reflexivity|split; [lia|constructor]].
    - unfold bind at 1, get in H.
      pose proof (str_bytes_length bm input) as Hlen.
      destruct (next_code_point (str_bytes bm input)) as [[c0 r0]|] eqn:E;
        [|discriminate].
      unfold char_indices in H.
      destruct (List.length (str_bytes bm input)) as [|f] eqn:Ef; [lia|].
      cbn [char_indices_from] in H. rewrite E in H.
      cbn [streak_loop] in H. rewrite Z.eqb_refl in H. cbn [negb] in H.
      pose proof (next_code_point_shorter _ _ _ E) as Hr0. rewrite Ef in Hr0, H.
      set (rest := char_indices_from f (0 + (S f - List.length r0)) r0) in H.
      assert (Hok : offs_ok 0 (slen input) rest).
      { destruct (char_indices_from_offsets f (0 + (S f - List.length r0)) r0)
          as [Hn | (c & rest' & Hc & Hpos & Hok)]; unfold rest; [rewrite Hn; exact I|].
        rewrite Hc. cbn [offs_ok]. split; [lia|].
        replace (slen input) with (0 + (S f - List.length r0) + List.length r0)%nat
          by lia.
        exact Hok. }
      unfold bind at 1 in H.
      destruct (streak_loop input rest c0 0 [] bm) as [[[[lc' li'] out'] bm1]|] eqn:L;
        [|discriminate].
      destruct (streak_loop_spec _ _ _ _ _ _ _ _ _ _ Hok L)
        as (-> & Hli & new & -> & Ht & Hf).
      unfold bind in H.
      destruct (str_index_from input li' bm) as [[last bm2]|] eqn:El; [|discriminate].
      apply str_index_from_ret in El as (-> & Hle & ->).
      injection H as <- <-. cbn [app] in *.
      split; [reflexivity|split].
      + replace (sptr input) with (elem_addr 1 (sptr input) 0) at 1
          by (unfold elem_addr; lia).
        apply tiles_app with (e1 := elem_addr 1 (sptr input) li'); [exact Ht|].
        cbn. split; [reflexivity|]. unfold elem_addr.
        rewrite Nat2Z.inj_sub by lia. lia.
      + apply Forall_app. split; [exact Hf|]. constructor; [cbn; lia|constructor]. }
  destruct Hmain as (-> & Ht & Hf). split; [reflexivity|split; [exact Ht|split; [exact Hf|]]].
  intros j p q Hp Hq.
  pose proof (tiles_nth_adjacent _ _ _ Ht j p q Hp Hq) as Hadj.
  destruct (tiles_within _ _ _ Ht p (nth_error_In _ _ Hp)) as [Hp1 _].
  destruct (tiles_within _ _ _ Ht q (nth_error_In _ _ Hq)) as [_ Hq2].
  rewrite str_rejoin_eq, str_try_rejoin_eq, Hadj.
  rewrite Z.mul_1_r, Z.eqb_refl, (proj2 (Z.leb_le _ _)) by lia. reflexivity.
Qed.

(** ** [split_by_streak] never panics on a valid [&str] *)

Lemma in_range_spec lo hi b : in_range lo hi b = true <-> lo <= b <= hi.
Proof. unfold in_range. rewrite andb_true_iff, !Z.leb_le. tauto. Qed.

(** On valid UTF-8 the decoder reads one whole encoded [char], which
    starts with a byte that is a char boundary, and leaves valid UTF-8. *)
Lemma next_code_point_valid x t :
  utf8_valid (x :: t) = true ->
  is_utf8_char_boundary x = true /\
  exists c pre r, next_code_point (x :: t) = Some (c, r) /\
                  t = (pre ++ r)%list /\ utf8_valid r = true.
Proof.
  rewrite utf8_valid_cons. unfold next_code_point, is_utf8_char_boundary.
  destruct (in_range 0x00 0x7F x) eqn:R1.
  { apply in_range_spec in R1. intros H.
    rewrite (proj2 (Z.ltb_lt x 128)) by lia.
    split; [reflexivity|].
    now exists x, [], t. }
  destruct (in_range 0xC2 0xDF x) eqn:R2.
  { apply in_range_spec in R2. destruct t as [|b1 r1]; [discriminate|].
    intros H. apply andb_prop in H as [_ H].
    rewrite (proj2 (Z.ltb_ge x 128)) by lia.
    cbn [next_or_0]. rewrite (proj2 (Z.leb_gt 0xE0 x)) by lia.
    split; [apply orb_true_iff; right; apply Z.leb_le; lia|].
    eexists _, [b1], r1. auto. }
  destruct (in_range 0xE0 0xEF x) eqn:R3.
  { apply in_range_spec in R3. destruct t as [|b1 [|b2 r2]]; try discriminate.
    intros H. apply andb_prop in H as [_ H].
    rewrite (proj2 (Z.ltb_ge x 128)) by lia.
    cbn [next_or_0]. rewrite (proj2 (Z.leb_le 0xE0 x)) by lia.
    rewrite (proj2 (Z.leb_gt 0xF0 x)) by lia.
    split; [apply orb_true_iff; right; apply Z.leb_le; lia|].
    eexists _, [b1; b2], r2. auto. }
  destruct (in_range 0xF0 0xF4 x) eqn:R4; [|discriminate].
  apply in_range_spec in R4. destruct t as [|b1 [|b2 [|b3 r3]]]; try discriminate.
  intros H. apply andb_prop in H as [_ H].
  rewrite (proj2 (Z.ltb_ge x 128)) by lia.
  cbn [next_or_0]. rewrite (proj2 (Z.leb_le 0xE0 x)) by lia.
  rewrite (proj2 (Z.leb_le 0xF0 x)) by lia.
  split; [apply orb_true_iff; right; apply Z.leb_le; lia|].
  eexists _, [b1; b2; b3], r3. auto.
Qed.

(** On valid UTF-8, every offset [char_indices] yields is inside the bytes
    and holds a byte that is a char boundary. *)
Lemma char_indices_from_boundaries fuel :
  forall off l, (List.length l <= fuel)%nat -> utf8_valid l = true ->
  forall o c, In (o, c) (char_indices_from fuel off l) ->
  (off <= o < off + List.length l)%nat /\
  is_utf8_char_boundary (nth (o - off) l 0) = true.
Proof.
  induction fuel as [|fuel IH]; intros off l Hf Hv o c Hin; [contradiction|].
  destruct l as [|x t]; [contradiction|].
  destruct (next_code_point_valid x t Hv) as (Hx & c0 & pre & r & E & -> & Hr).
  cbn [char_indices_from] in Hin. rewrite E in Hin.
  destruct Hin as [Hin | Hin].
  - injection Hin as <- <-. rewrite Nat.sub_diag. cbn [List.length]. split; [lia|exact Hx].
  - cbn [List.length] in *. rewrite length_app in *.
    replace (S (List.length pre + List.length r) - List.length r)%nat
      with (S (List.length pre)) in Hin by lia.
    destruct (IH _ r ltac:(lia) Hr o c Hin) as [Ho Hb].
    split; [lia|].
    change (x :: pre ++ r)%list with ((x :: pre) ++ r)%list.
    rewrite app_nth2 by (cbn [List.length]; lia).
    cbn [List.length].
    replace (o - off - S (List.length pre))%nat
      with (o - (off + S (List.length pre)))%nat by lia.
    exact Hb.
Qed.

Lemma nth_str_bytes bm s o :
  (o < slen s)%nat -> nth o (str_bytes bm s) 0 = bm (elem_addr 1 (sptr s) o).
Proof.
  intros Ho. unfold str_bytes, contents.
  rewrite (nth_indep _ 0 ((fun i => bm (elem_addr 1 (ptr (as_bytes s)) i)) 0%nat))
    by now rewrite length_map, length_seq.
  pose proof (map_nth (fun i => bm (elem_addr 1 (ptr (as_bytes s)) i))
                (seq 0 (len (as_bytes s))) 0%nat o) as Hm.
  cbv beta in Hm. rewrite Hm, seq_nth by exact Ho. reflexivity.
Qed.

Lemma is_char_boundary_at bm s o :
  (o < slen s)%nat ->
  is_utf8_char_boundary (nth o (str_bytes bm s) 0) = true ->
  is_char_boundary s o bm = Ret (true, bm).
Proof.
  intros Ho Hb. rewrite nth_str_bytes in Hb by exact Ho.
  unfold is_char_boundary.
  destruct (o =? 0)%nat; [reflexivity|].
  rewrite (proj2 (Nat.leb_gt _ _)) by exact Ho.
  unfold bind. rewrite read_eq. cbn [as_bytes len ptr].
  rewrite (proj2 (Nat.ltb_lt _ _)) by exact Ho. now rewrite Hb.
Qed.

(** The loop does not panic when every offset it meets, and the starting
    [last_idx], are char boundaries. *)
Lemma streak_loop_no_panic input bm ci :
  forall lc li out,
  offs_ok li (slen input) ci ->
  Forall (fun oc => is_char_boundary input (fst oc) bm = Ret (true, bm)) ci ->
  is_char_boundary input li bm = Ret (true, bm) ->
  exists lc' li' out',
    streak_loop input ci lc li out bm = Ret ((lc', li', out'), bm) /\
    is_char_boundary input li' bm = Ret (true, bm).
Proof.
  induction ci as [|[i c] rest IH]; intros lc li out Hok Hall Hli.
  - eexists _, _, _. split; [reflexivity|exact Hli].
  - destruct Hok as [Hi Hok]. inversion Hall as [|? ? Hic Hrest]; subst.
    cbn [fst] in Hic. cbn [streak_loop].
    destruct (negb (lc =? c)).
    + unfold bind at 1, str_index_range.
      rewrite (proj2 (Nat.leb_le li i)) by lia.
      unfold bind. rewrite Hli, Hic. cbn [ret].
      apply IH; assumption.
    + apply IH; [|assumption|assumption].
      apply offs_ok_lower with (lo := i); [lia|exact Hok].
Qed.

Lemma offs_ok_bound lo hi ci :
  offs_ok lo hi ci -> Forall (fun oc => (lo < fst oc < hi)%nat) ci.
Proof.
  revert lo. induction ci as [|[i c] r IH]; intros lo H; constructor.
  - cbn. apply H.
  - destruct H as [Hi H]. specialize (IH _ H).
    eapply Forall_impl; [|exact IH]. cbn. intros [o c'] Ho. cbn in *. lia.
Qed.

Lemma char_indices_cons l c0 r :
  next_code_point l = Some (c0, r) ->
  exists rest, char_indices l = (0%nat, c0) :: rest /\
               offs_ok 0 (List.length l) rest.
Proof.
  intros E. pose proof (next_code_point_shorter _ _ _ E) as Hr.
  unfold char_indices. destruct (List.length l) as [|f] eqn:Ef; [lia|].
  cbn [char_indices_from]. rewrite E, Ef.
  eexists; split; [reflexivity|].
  destruct (char_indices_from_offsets f (0 + (S f - List.length r)) r)
    as [Hn | (c & rest' & Hc & Hpos & Hok)]; [rewrite Hn; exact I|].
  rewrite Hc. cbn [offs_ok]. split; [lia|].
  replace (S f) with (0 + (S f - List.length r) + List.length r)%nat at 2 by lia.
  exact Hok.
Qed.

(** On an input whose bytes are valid UTF-8 (every [&str]), the documented
    splitter never panics: every index it slices at is a char boundary. *)
Theorem split_by_streak_no_panic (input : str_ref) (bm : byte_mem) :
  utf8_valid (str_bytes bm input) = true ->
  exists ps, split_by_streak input bm = Ret (ps, bm).
Proof.
  intros Hv. unfold split_by_streak.
  destruct (Nat.eqb_spec (slen input) 0) as [E0|E0]; [eexists; reflexivity|].
  unfold bind at 1, get.
  pose proof (str_bytes_length bm input) as Hlen.
  destruct (str_bytes bm input) as [|x t] eqn:El; [cbn in Hlen; lia|].
  destruct (next_code_point_valid x t Hv) as (_ & c0 & pre & r & E & _ & _).
  rewrite E.
  destruct (char_indices_cons _ _ _ E) as (rest & Hci & Hok).
  rewrite Hci. cbn [streak_loop]. rewrite Z.eqb_refl. cbn [negb].
  rewrite Hlen in Hok.
  assert (Hall : Forall (fun oc => is_char_boundary input (fst oc) bm = Ret (true, bm))
                        rest).
  { apply Forall_forall. intros [o c] Hin. cbn [fst].
    assert (Hin' : In (o, c) (char_indices (x :: t))) by (rewrite Hci; now right).
    destruct (char_indices_from_boundaries _ 0 (x :: t) (le_n _) Hv o c Hin')
      as [Ho Hb].
    rewrite Nat.sub_0_r in Hb. rewrite Hlen in Ho.
    apply is_char_boundary_at; [lia|]. now rewrite El. }
  destruct (streak_loop_no_panic input bm rest c0 0 [] Hok Hall eq_refl)
    as (lc' & li' & out' & L & Hb).
  unfold bind at 1. rewrite L.
  cbv beta iota. unfold str_index_from, bind. rewrite Hb. eexists. reflexivity.
Qed.

(** ** The crate documentation's example and more witnesses *)

(** [values[len-2].rejoin(values[len-1]) == "ggggggggh"] *)
Example doc_example :
  (values <- split_by_streak doc_input ;;
   str_rejoin (nth 6 values doc_input) (nth 7 values doc_input)) doc_mem
  = Ret (mk_str 3035 9, doc_mem) /\
  str_bytes doc_mem (mk_str 3035 9)
  = map (fun ch => Z.of_N (Ascii.N_of_ascii ch)) (list_ascii_of_string "ggggggggh").
Proof. split; reflexivity. Qed.

Lemma split_rejoin_mut_copy_witness :
  (0 < 4)%nat /\ Z.of_nat (len buf7) <= usize_max /\ (3 <= len buf7)%nat /\
  List.length [14; 15; 16; 17; 18; 19; 20] = len buf7 /\
  exists m',
    (ab <- split_at_mut 4 buf7 3 ;;
     j <- rejoin_mut 4 (fst ab) (snd ab) ;;
     copy_from_slice 4 j [14; 15; 16; 17; 18; 19; 20]) zero_mem = Ret (tt, m') /\
    contents 4 m' buf7 = [14; 15; 16; 17; 18; 19; 20].
Proof.
  split; [lia|split; [cbn; unfold usize_max; lia|split; [cbn; lia|split; [reflexivity|]]]].
  apply split_rejoin_mut_copy; cbn; unfold usize_max; lia.
Defined.

Lemma split_by_streak_tiles_witness :
  Z.of_nat (slen cea) <= usize_max /\
  split_by_streak cea cea_mem
  = Ret ([mk_str 2000 1; mk_str 2001 2; mk_str 2003 1], cea_mem) /\
  str_rejoin (mk_str 2001 2) (mk_str 2003 1) cea_mem = Ret (mk_str 2001 3, cea_mem).
Proof.
  assert (H : split_by_streak cea cea_mem
              = Ret ([mk_str 2000 1; mk_str 2001 2; mk_str 2003 1], cea_mem))
    by reflexivity.
  assert (Hu : Z.of_nat (slen cea) <= usize_max) by (cbn; unfold usize_max; lia).
  split; [exact Hu|split; [exact H|]].
  destruct (split_by_streak_tiles cea cea_mem _ _ Hu H) as (_ & _ & _ & Hj).
  exact (Hj 1%nat _ _ eq_refl eq_refl).
Defined.

Lemma split_by_streak_no_panic_witness :
  utf8_valid (str_bytes doc_mem doc_input) = true /\
  exists ps, split_by_streak doc_input doc_mem = Ret (ps, doc_mem).
Proof.
  assert (Hv : utf8_valid (str_bytes doc_mem doc_input) = true) by reflexivity.
  split; [exact Hv|].
  exact (split_by_streak_no_panic doc_input doc_mem Hv).
Defined.

Lemma rejoin_assoc_witness :
  Z.of_nat (len (mk_slice 1000 3)) + Z.of_nat (len (mk_slice 1012 2))
    + Z.of_nat (len (mk_slice 1020 2)) <= usize_max /\
  (ab <- rejoin 4 (mk_slice 1000 3) (mk_slice 1012 2) ;;
   rejoin 4 ab (mk_slice 1020 2)) zero_mem =
  (bc <- rejoin 4 (mk_slice 1012 2) (mk_slice 1020 2) ;;
   rejoin 4 (mk_slice 1000 3) bc) zero_mem /\
  (bc <- rejoin 4 (mk_slice 1012 2) (mk_slice 1020 2) ;;
   rejoin 4 (mk_slice 1000 3) bc) zero_mem = Ret (buf7, zero_mem).
Proof.
  assert (H : Z.of_nat (len (mk_slice 1000 3)) + Z.of_nat (len (mk_slice 1012 2))
                + Z.of_nat (len (mk_slice 1020 2)) <= usize_max)
    by (cbn; unfold usize_max; lia).
  split; [exact H|split; [|reflexivity]].
  exact (rejoin_assoc 4 (mk_slice 1000 3) (mk_slice 1012 2) (mk_slice 1020 2)
           zero_mem (or_introl H)).
Defined.

Lemma str_rejoin_assoc_witness :
  in_space 1 (as_bytes (mk_str 2000 1)) /\ in_space 1 (as_bytes (mk_str 2001 2)) /\
  in_space 1 (as_bytes (mk_str 2003 1)) /\
  (ab <- str_rejoin (mk_str 2000 1) (mk_str 2001 2) ;;
   str_rejoin ab (mk_str 2003 1)) cea_mem =
  (bc <- str_rejoin (mk_str 2001 2) (mk_str 2003 1) ;;
   str_rejoin (mk_str 2000 1) bc) cea_mem /\
  (bc <- str_rejoin (mk_str 2001 2) (mk_str 2003 1) ;;
   str_rejoin (mk_str 2000 1) bc) cea_mem = Ret (cea, cea_mem).
Proof.
  assert (Ha : in_space 1 (as_bytes (mk_str 2000 1)))
    by (unfold in_space, usize_max; cbn; lia).
  assert (Hb : in_space 1 (as_bytes (mk_str 2001 2)))
    by (unfold in_space, usize_max; cbn; lia).
  assert (Hc : in_space 1 (as_bytes (mk_str 2003 1)))
    by (unfold in_space, usize_max; cbn; lia).
  split; [exact Ha|split; [exact Hb|split; [exact Hc|split; [|reflexivity]]]].
  exact (str_rejoin_assoc _ _ _ cea_mem Ha Hb Hc).
Defined.

Lemma try_rejoin_empty_units_witness :
  Z.of_nat (len buf7) <= usize_max /\
  (e <- index_from 4 buf7 (len buf7) ;; try_rejoin 4 buf7 e) zero_mem
  = Ret (Some buf7, zero_mem) /\
  (e <- index_to buf7 0 ;; try_rejoin 4 e buf7) zero_mem = Ret (Some buf7, zero_mem).
Proof.
  assert (H : Z.of_nat (len buf7) <= usize_max) by (cbn; unfold usize_max; lia).
  split; [exact H|].
  exact (try_rejoin_empty_units 4 buf7 buf7 zero_mem H H).
Defined.
